(** * electrode.brain: the Brain orchestrator

    A shallow embedding of [electrode/brain/__init__.py].  The [Brain] class
    collects neurons and synapses, compiles them into one networkx graph
    and (eventually) runs the simulation.  Python exceptions are explicit
    outcomes, and every method is a state transformer on the Brain's
    attributes that also keeps the state reached when an exception
    escapes. *)

From stdpp Require Import gmap strings list fin_maps.
From Stdlib Require Import ZArith Ascii.

Set Warnings "-clear-no-such-hyp".
Open Scope Z_scope.

(** ** Python outcomes *)

(** The exception classes that the methods of [Brain], and the library
    calls they make, can raise. *)
Inductive exn :=
  | TypeError
  | RuntimeError
  | NotImplementedError
  | ValueError
  | IndexError
  | KeyError.

Inductive outcome (A : Type) :=
  | Return (a : A)
  | Raise (e : exn).
Arguments Return {A} a.
Arguments Raise {A} e.

Definition raises {A} (o : outcome A) : Prop := ∃ e, o = Raise e.

(** The names the specification gives to the two exceptions of
    [add_neuron]. *)
Definition LifecycleError : exn := RuntimeError.
Definition InvalidArgument : exn := TypeError.

(** ** The networkx graph

    networkx is a dependency of the package.  What [Brain] uses of it,
    [nx.Graph()] and [nx.compose_all], is written out here after the
    library: an undirected graph is a table of nodes and a table of
    adjacency rows, both ends of an edge holding its data. *)

(** A segment is addressed by (neuron id, port id). *)
Definition SegmentKey : Type := string * string.

(** Attribute dictionaries: keyword to an opaque payload. *)
Abbreviation AttrDict := (gmap string Z).

(** [networkx.Graph]: the graph attributes [G.graph], the node table
    [G._node] and the symmetric adjacency table [G._adj]. *)
Record Graph := mkGraph {
  graph_attr : AttrDict;
  _node : gmap SegmentKey AttrDict;
  _adj : gmap SegmentKey (gmap SegmentKey AttrDict)
}.

(** [nx.Graph()] *)
Definition nx_Graph : Graph :=
  {| graph_attr := ∅; _node := ∅; _adj := ∅ |}.

(** [G.nodes], as a set. *)
Definition nodes (g : Graph) : gset SegmentKey := dom (_node g).

(** [G.get_edge_data(u, v)] *)
Definition get_edge_data (g : Graph) (u v : SegmentKey) : option AttrDict :=
  _adj g !! u ≫= λ row, row !! v.

(** [G.has_edge(u, v)] *)
Definition has_edge (g : Graph) (u v : SegmentKey) : bool :=
  bool_decide (is_Some (get_edge_data g u v)).

(** [G.degree(n)]: the neighbours of [n], a self-loop counting twice. *)
Definition degree (g : Graph) (n : SegmentKey) : nat :=
  match _adj g !! n with
  | Some row => (size row + if bool_decide (n ∈ dom row) then 1 else 0)%nat
  | None => 0%nat
  end.

(** Later dictionaries win on the keys they share ([dict.update]). *)
Definition update_attr (old new : AttrDict) : AttrDict := new ∪ old.

(** [G.add_node(n, **attr)]: a new node gets an empty adjacency row, a
    known one has its attributes updated. *)
Definition add_node (n : SegmentKey) (attr : AttrDict) (g : Graph) : Graph :=
  match _node g !! n with
  | None =>
      {| graph_attr := graph_attr g;
         _node := <[n := attr]> (_node g);
         _adj := <[n := ∅]> (_adj g) |}
  | Some old =>
      {| graph_attr := graph_attr g;
         _node := <[n := update_attr old attr]> (_node g);
         _adj := _adj g |}
  end.

(** The first lines of [add_edge]: an end that is not a node yet becomes
    one, with no attribute and no neighbour. *)
Definition ensure_node (n : SegmentKey) (g : Graph) : Graph :=
  match _node g !! n with
  | None =>
      {| graph_attr := graph_attr g;
         _node := <[n := ∅]> (_node g);
         _adj := <[n := ∅]> (_adj g) |}
  | Some _ => g
  end.

(** [G.add_edge(u, v, **attr)]: the data of the edge, updated with [attr],
    is stored in the rows of both ends. *)
Definition add_edge (u v : SegmentKey) (attr : AttrDict) (g : Graph) : Graph :=
  let g := ensure_node v (ensure_node u g) in
  let datadict := update_attr (default ∅ (get_edge_data g u v)) attr in
  let adj1 := <[u := <[v := datadict]> (default ∅ (_adj g !! u))]> (_adj g) in
  let adj2 := <[v := <[u := datadict]> (default ∅ (adj1 !! v))]> adj1 in
  {| graph_attr := graph_attr g; _node := _node g; _adj := adj2 |}.

(** [R.add_nodes_from(G.nodes(data=True))] and
    [R.add_edges_from(G.edges(data=True))], iterating over the tables of
    the graph that is read.  An undirected edge is met from both of its
    ends; inserting it a second time with the same data changes nothing. *)
Definition add_nodes_from (src : gmap SegmentKey AttrDict) (R : Graph) : Graph :=
  map_fold add_node R src.

Definition add_edges_from
    (src : gmap SegmentKey (gmap SegmentKey AttrDict)) (R : Graph) : Graph :=
  map_fold (λ u row R, map_fold (λ v d R, add_edge u v d R) R row) R src.

(** [nx.compose(G, H)]: a new graph holding the nodes and edges of both,
    the attributes of [H] taking precedence. *)
Definition compose (G H : Graph) : Graph :=
  let R := {| graph_attr := update_attr (update_attr ∅ (graph_attr G)) (graph_attr H);
              _node := ∅; _adj := ∅ |} in
  let R := add_nodes_from (_node G) R in
  let R := add_nodes_from (_node H) R in
  let R := add_edges_from (_adj G) R in
  add_edges_from (_adj H) R.

(** [nx.compose_all(graphs)]: refuses an empty list, otherwise folds
    [compose] from the first graph on.  A list of one graph gives that
    graph back. *)
Definition compose_all (graphs : list Graph) : outcome Graph :=
  match graphs with
  | [] => Raise ValueError
  | C :: rest => Return (foldl compose C rest)
  end.

(** Every end of every adjacency row is a node of the graph, as networkx
    keeps it. *)
Definition graph_closed (g : Graph) : Prop :=
  map_Forall (λ u row, u ∈ nodes g ∧ dom row ⊆ nodes g) (_adj g).

#[global] Instance graph_closed_dec (g : Graph) : Decision (graph_closed g) :=
  ltac:(unfold graph_closed; apply _).

(** ** Python values handed to the Brain *)

(** Modelled from the spec: the [Neuron] class of [electrode.neuron], which
    is not part of the sources.  A neuron owns an internal subgraph whose
    nodes are its own SegmentKeys and whose edges carry arbitrary
    attributes; [compile] hands neurons to [nx.compose_all] as graphs. *)
Definition Neuron : Type := Graph.

(** Modelled from the spec: the [Synapse] class of [electrode.synapse],
    which is not part of the sources either.  A synapse carries a weight
    and possibly further simulation parameters as opaque attributes. *)
Definition Synapse : Type := AttrDict.

#[warnings="-register-all"] Inductive pyobj :=
  | ONone
  | OInt (z : Z)
  | OStr (s : string)
  | OTuple (items : list pyobj)
  | ONeuron (n : Neuron)
  | OSynapse (w : Synapse).

(** A segment key as the tuple of two strings that a caller passes. *)
Definition key_obj (key : SegmentKey) : pyobj :=
  OTuple [OStr key.1; OStr key.2].

(** [isinstance(o, Neuron)] *)
Definition isinstance_Neuron (o : pyobj) : option Neuron :=
  match o with ONeuron n => Some n | _ => None end.

(** [l.append] applied to the positional arguments [args]: the built-in
    takes exactly one. *)
Definition list_append {A} (l : list A) (args : list A) : outcome (list A) :=
  match args with
  | [x] => Return (l ++ [x])
  | _ => Raise TypeError
  end.

(** ** The Brain *)

Record Brain := mkBrain {
  time_resolution : Z;
  _graph : Graph;
  loaded : bool;
  _neurons : list Neuron;
  _synapses : list pyobj
}.

(** Modelled from the spec: [timing.ms] of [electrode.timing], which is not
    part of the sources; [ms(0.5)] is 500000 nanoseconds. *)
Definition timing_ms_half : Z := 500000.

(** [Brain()] and [Brain(time_resolution=t)] *)
Definition __init__ (time_resolution : option Z) : Brain :=
  {| time_resolution := default timing_ms_half time_resolution;
     _graph := nx_Graph;
     loaded := false;
     _neurons := [];
     _synapses := [] |}.

(** A method body: it reads and writes the attributes of [self] and either
    returns or raises; the attributes written before an exception stay
    written. *)
Definition M (A : Type) : Type := Brain → outcome A * Brain.

Definition ret {A} (a : A) : M A := λ self, (Return a, self).
Definition raise {A} (e : exn) : M A := λ self, (Raise e, self).
Definition bind {A B} (m : M A) (f : A → M B) : M B :=
  λ self,
    match m self with
    | (Return a, self') => f a self'
    | (Raise e, self') => (Raise e, self')
    end.
Definition call {A} (o : outcome A) : M A := λ self, (o, self).
Definition attr {A} (field : Brain → A) : M A := λ self, (Return (field self), self).

Definition set_loaded (v : bool) : M unit := λ self,
  (Return (), {| time_resolution := time_resolution self; _graph := _graph self;
                 loaded := v; _neurons := _neurons self;
                 _synapses := _synapses self |}).
Definition set_graph (g : Graph) : M unit := λ self,
  (Return (), {| time_resolution := time_resolution self; _graph := g;
                 loaded := loaded self; _neurons := _neurons self;
                 _synapses := _synapses self |}).
Definition set_neurons (l : list Neuron) : M unit := λ self,
  (Return (), {| time_resolution := time_resolution self; _graph := _graph self;
                 loaded := loaded self; _neurons := l;
                 _synapses := _synapses self |}).
Definition set_synapses (l : list pyobj) : M unit := λ self,
  (Return (), {| time_resolution := time_resolution self; _graph := _graph self;
                 loaded := loaded self; _neurons := _neurons self;
                 _synapses := l |}).

Declare Scope py_scope.
Delimit Scope py_scope with py.
Notation "x <- m ;; body" := (bind m (λ x, body))
  (at level 100, m at next level, right associativity) : py_scope.
Notation "m ;;; body" := (bind m (λ _, body))
  (at level 100, right associativity) : py_scope.

(** [for x in l: body] *)
Fixpoint for_each {A} (l : list A) (body : A → M unit) : M unit :=
  match l with
  | [] => ret ()
  | x :: rest => bind (body x) (λ _, for_each rest body)
  end.

Definition outcome_of {A} (r : outcome A * Brain) : outcome A := fst r.
Definition state_of {A} (r : outcome A * Brain) : Brain := snd r.

(** What the sources leave to code that is not part of them: how
    [Graph.add_edge] treats a third positional argument (it depends on the
    networkx release and on the [Synapse] class), and how instances of
    [Neuron] and [Synapse] answer to subscription.  Both are met in the
    synapse loop of [compile] only.  That loop inserts into the Brain's
    graph in place; here it passes graph values along, which is the same
    as long as there is no synapse to insert, and no Brain that a client
    can hold has one ([program_no_synapses] below). *)
Record Externals := mkExternals {
  add_edge_positional : Graph → pyobj → pyobj → pyobj → outcome Graph;
  instance_getitem : pyobj → nat → outcome pyobj
}.

Section Methods.

Context (ext : Externals).

(** [o[i]] for a non-negative index [i]. *)
Definition getitem (o : pyobj) (i : nat) : outcome pyobj :=
  match o with
  | OTuple items =>
      match items !! i with Some x => Return x | None => Raise IndexError end
  | OStr s =>
      match String.get i s with
      | Some c => Return (OStr (String c EmptyString))
      | None => Raise IndexError
      end
  | ONone | OInt _ => Raise TypeError
  | ONeuron _ | OSynapse _ => instance_getitem ext o i
  end.

Definition compile (reduce : bool) : M unit :=
  (set_loaded true ;;;
   set_graph nx_Graph ;;;
   if reduce then
     neurons <- attr _neurons ;;
     g <- call (compose_all neurons) ;;
     set_graph g ;;;
     synapses <- attr _synapses ;;
     for_each synapses (λ synapse,
       u <- call (getitem synapse 0) ;;
       v <- call (getitem synapse 1) ;;
       d <- call (getitem synapse 2) ;;
       g <- attr _graph ;;
       g' <- call (add_edge_positional ext g u v d) ;;
       set_graph g')
   else ret ())%py.

Definition run : M bool := raise NotImplementedError.

Definition __getitem__ (key : pyobj) : M pyobj := raise NotImplementedError.

Definition add_neuron (neuron : pyobj) : M unit :=
  (match isinstance_Neuron neuron with
   | None => raise TypeError
   | Some n =>
       is_loaded <- attr loaded ;;
       if is_loaded : bool then raise RuntimeError
       else
         neurons <- attr _neurons ;;
         neurons' <- call (list_append neurons [n]) ;;
         set_neurons neurons'
   end)%py.

Definition add_synapse (synapse source sink : pyobj) : M unit :=
  (synapses <- attr _synapses ;;
   synapses' <- call (list_append synapses [source; sink; synapse]) ;;
   set_synapses synapses' ;;;
   raise NotImplementedError)%py.

(** *** Programs: sequences of method calls on one Brain *)

Inductive method_call :=
  | CallCompile (reduce : bool)
  | CallRun
  | CallGetitem (key : pyobj)
  | CallAddNeuron (neuron : pyobj)
  | CallAddSynapse (synapse source sink : pyobj).

(** The Brain after one call, whether the call returned or raised (the
    caller catching the exception). *)
Definition perform (self : Brain) (c : method_call) : Brain :=
  match c with
  | CallCompile reduce => state_of (compile reduce self)
  | CallRun => state_of (run self)
  | CallGetitem key => state_of (__getitem__ key self)
  | CallAddNeuron neuron => state_of (add_neuron neuron self)
  | CallAddSynapse synapse source sink =>
      state_of (add_synapse synapse source sink self)
  end.

Definition perform_all (self : Brain) (calls : list method_call) : Brain :=
  foldl perform self calls.

(** The calls that add the neurons [ns], in order. *)
Definition add_neurons (ns : list Neuron) : list method_call :=
  (λ n, CallAddNeuron (ONeuron n)) <$> ns.

(** The Brains a client can hold: a fresh one, or one obtained from those by
    a method call. *)
Inductive reachable : Brain → Prop :=
  | reachable_init t : reachable (__init__ t)
  | reachable_call self c : reachable self → reachable (perform self c).

End Methods.

(** Whether a call is a call of [compile]. *)
Definition is_compile (c : method_call) : bool :=
  match c with CallCompile _ => true | _ => false end.

(** What holds of the graph of every Brain that a client can hold. *)
Definition graph_invariant (self : Brain) : Prop :=
  _synapses self = []
  ∧ if loaded self
    then _graph self = nx_Graph ∨ compose_all (_neurons self) = Return (_graph self)
    else _graph self = nx_Graph.

(** Whatever data the graph [g] holds for the edge between [a] and [b], in
    either direction, is [d]. *)
Definition agrees_on (d : AttrDict) (a b : SegmentKey) (g : Graph) : Prop :=
  from_option (λ x, x = d) True (get_edge_data g a b)
  ∧ from_option (λ x, x = d) True (get_edge_data g b a).

(** [G.nodes[k].get(name)], for a node [k] of [G]. *)
Definition node_value (g : Graph) (k : SegmentKey) (name : string) : option Z :=
  _node g !! k ≫= λ attrs, attrs !! name.

(** networkx from release 2.0 on: [add_edge(u_of_edge, v_of_edge, **attr)]
    takes two positional arguments and a third one is a [TypeError]; the
    instances are taken not to be subscriptable. *)
Definition networkx2 : Externals :=
  {| add_edge_positional := λ _ _ _ _, Raise TypeError;
     instance_getitem := λ _ _, Raise TypeError |}.

(** ** Sample networks *)

Definition seg (neuron port : string) : SegmentKey := (neuron, port).

(** A neuron with the single segment [(name, "p1")]. *)
Definition single_segment (name : string) : Neuron :=
  add_node (seg name "p1") ∅ nx_Graph.

(** A neuron whose subgraph is the path A - B - C - D. *)
Definition chain : Neuron :=
  add_edge (seg "n" "C") (seg "n" "D") {[ "weight" := 3 ]}
    (add_edge (seg "n" "B") (seg "n" "C") {[ "weight" := 2 ]}
       (add_edge (seg "n" "A") (seg "n" "B") {[ "weight" := 1 ]} nx_Graph)).

(** ** The packaging script

    [setup.py] reads [requirements.txt], decoded as UTF-8, and sorts its
    lines into the requirements to install and the links to fetch them
    from.  A Python string is held here as the bytes of its UTF-8
    encoding; the texts it is searched for are ASCII, so that searching
    the bytes is searching the characters. *)

Definition pystr : Type := list ascii.

Definition lit (s : string) : pystr := String.list_ascii_of_string s.

(** [x.startswith(p)] *)
Fixpoint startswith (x p : pystr) {struct p} : bool :=
  match p, x with
  | [], _ => true
  | _ :: _, [] => false
  | c :: p', d :: x' => bool_decide (c = d) && startswith x' p'
  end.

(** [p in x] *)
Fixpoint contains (x p : pystr) : bool :=
  startswith x p
  || match x with
     | [] => false
     | _ :: x' => contains x' p
     end.

(** [x.replace(old, new)] for a non-empty [old], the only use the script
    makes of it: the occurrences are replaced from left to right, the
    search resuming after each one.  [skip] counts the characters of an
    occurrence that are still to be passed over. *)
Fixpoint replace_from (old new : pystr) (skip : nat) (x : pystr) : pystr :=
  match x with
  | [] => []
  | c :: x' =>
      match skip with
      | S k => replace_from old new k x'
      | O =>
          if startswith x old
          then new ++ replace_from old new (length old - 1) x'
          else c :: replace_from old new 0 x'
      end
  end.

Definition replace (x old new : pystr) : pystr := replace_from old new 0 x.

(** The characters that [str.strip] removes, in UTF-8: U+0009 to U+000D,
    U+001C to U+0020, U+0085, U+00A0, U+1680, U+2000 to U+200A, U+2028,
    U+2029, U+202F, U+205F and U+3000. *)
Definition whitespace : list pystr :=
  (λ bytes : list nat, ascii_of_nat <$> bytes) <$>
    [ [9]; [10]; [11]; [12]; [13]; [28]; [29]; [30]; [31]; [32];
      [194; 133]; [194; 160]; [225; 154; 128];
      [226; 128; 128]; [226; 128; 129]; [226; 128; 130]; [226; 128; 131];
      [226; 128; 132]; [226; 128; 133]; [226; 128; 134]; [226; 128; 135];
      [226; 128; 136]; [226; 128; 137]; [226; 128; 138];
      [226; 128; 168]; [226; 128; 169]; [226; 128; 175];
      [226; 129; 159]; [227; 128; 128] ]%nat.

(** [x.lstrip()]: whitespace characters are dropped from the front as long
    as there are any. *)
Fixpoint lstrip_from (skip : nat) (x : pystr) : pystr :=
  match x with
  | [] => []
  | _ :: x' =>
      match skip with
      | S k => lstrip_from k x'
      | O =>
          match List.find (startswith x) whitespace with
          | Some w => lstrip_from (length w - 1) x'
          | None => x
          end
      end
  end.

Definition lstrip (x : pystr) : pystr := lstrip_from 0 x.

(** [x.rstrip()]: the string is cut where only whitespace follows. *)
Fixpoint rstrip (x : pystr) : pystr :=
  match x with
  | [] => []
  | c :: x' =>
      match lstrip x with
      | [] => []
      | _ :: _ => c :: rstrip x'
      end
  end.

(** [x.strip()] *)
Definition strip (x : pystr) : pystr := rstrip (lstrip x).

Definition newline : ascii := ascii_of_nat 10.

(** [s.split('\n')]: never empty, a final newline giving a final empty
    string. *)
Fixpoint split_newline (s : pystr) : list pystr :=
  match s with
  | [] => [[]]
  | c :: s' =>
      if bool_decide (c = newline) then [] :: split_newline s'
      else
        match split_newline s' with
        | line :: rest => (c :: line) :: rest
        | [] => [[c]]
        end
  end.

Definition git : pystr := lit "git+".

(** [install_requires = [x.strip() for x in all_reqs if 'git+' not in x]] *)
Definition install_requires (all_reqs : list pystr) : list pystr :=
  strip <$> filter (λ x, contains x git = false) all_reqs.

(** [dependency_links = [x.strip().replace('git+', '') for x in all_reqs
    if x.startswith('git+')]] *)
Definition dependency_links (all_reqs : list pystr) : list pystr :=
  (λ x, replace (strip x) git []) <$>
    filter (λ x, startswith x git = true) all_reqs.

(** * Properties *)

(** ** The graph library *)

Lemma nodes_nx_Graph : nodes nx_Graph = ∅.
Proof. unfold nodes; simpl. apply dom_empty_L. Qed.

Lemma nodes_add_node n a g : nodes (add_node n a g) = {[ n ]} ∪ nodes g.
Proof.
  unfold nodes, add_node. destruct (_node g !! n) eqn:Hn; simpl;
    rewrite dom_insert_L; done.
Qed.

Lemma nodes_ensure_node n g : nodes (ensure_node n g) = {[ n ]} ∪ nodes g.
Proof.
  unfold nodes, ensure_node. destruct (_node g !! n) eqn:Hn; simpl.
  - apply (elem_of_dom_2 (D:=gset SegmentKey)) in Hn. set_solver.
  - by rewrite dom_insert_L.
Qed.

Lemma nodes_add_edge u v a g : nodes (add_edge u v a g) = {[ u; v ]} ∪ nodes g.
Proof.
  unfold add_edge. unfold nodes at 1; simpl. fold (nodes (ensure_node v (ensure_node u g))).
  rewrite !nodes_ensure_node. set_solver.
Qed.

Lemma nodes_add_nodes_from src R :
  nodes (add_nodes_from src R) = dom src ∪ nodes R.
Proof.
  unfold add_nodes_from.
  apply (map_fold_weak_ind (λ r m, nodes r = dom m ∪ nodes R)).
  - rewrite dom_empty_L. set_solver.
  - intros n a m r _ IH. rewrite nodes_add_node, IH, dom_insert_L. set_solver.
Qed.

Lemma nodes_add_row (u : SegmentKey) (row : gmap SegmentKey AttrDict) (R : Graph) :
  u ∈ nodes R → dom row ⊆ nodes R →
  nodes (map_fold (λ v d R, add_edge u v d R) R row) = nodes R.
Proof.
  intros Hu.
  apply (map_fold_weak_ind (λ r m, dom m ⊆ nodes R → nodes r = nodes R)).
  - done.
  - intros v d m r _ IH Hsub. rewrite dom_insert_L in Hsub.
    rewrite nodes_add_edge, IH; set_solver.
Qed.

Lemma nodes_add_edges_from src R :
  map_Forall (λ u row, u ∈ nodes R ∧ dom row ⊆ nodes R) src →
  nodes (add_edges_from src R) = nodes R.
Proof.
  unfold add_edges_from.
  apply (map_fold_weak_ind (λ r m,
    map_Forall (λ u row, u ∈ nodes R ∧ dom row ⊆ nodes R) m → nodes r = nodes R)).
  - done.
  - intros u row m r Hfresh IH Hall.
    apply map_Forall_insert in Hall as [[Hu Hrow] Hm]; [|done].
    specialize (IH Hm).
    rewrite nodes_add_row; rewrite ?IH; done.
Qed.

Lemma graph_closed_nx_Graph ga : graph_closed (mkGraph ga ∅ ∅).
Proof. unfold graph_closed; simpl. apply map_Forall_empty. Qed.

Lemma graph_closed_add_node n a g :
  graph_closed g → graph_closed (add_node n a g).
Proof.
  unfold graph_closed. rewrite nodes_add_node. intros Hg w row.
  unfold add_node. destruct (_node g !! n); simpl.
  - intros Hrow. destruct (Hg _ _ Hrow). set_solver.
  - rewrite lookup_insert. case_decide as Hw.
    + subst w. intros [= <-]. set_solver.
    + intros Hrow. destruct (Hg _ _ Hrow). set_solver.
Qed.

Lemma graph_closed_ensure_node n g :
  graph_closed g → graph_closed (ensure_node n g).
Proof.
  unfold graph_closed. rewrite nodes_ensure_node. intros Hg w row.
  unfold ensure_node. destruct (_node g !! n); simpl.
  - intros Hrow. destruct (Hg _ _ Hrow). set_solver.
  - rewrite lookup_insert. case_decide as Hw.
    + subst w. intros [= <-]. set_solver.
    + intros Hrow. destruct (Hg _ _ Hrow). set_solver.
Qed.

Lemma graph_closed_add_edge u v a g :
  graph_closed g → graph_closed (add_edge u v a g).
Proof.
  intros Hg0.
  assert (Hg : graph_closed (ensure_node v (ensure_node u g))).
  { by do 2 apply graph_closed_ensure_node. }
  unfold graph_closed in *. rewrite nodes_add_edge.
  assert (Hn : nodes (ensure_node v (ensure_node u g)) = {[ u; v ]} ∪ nodes g).
  { rewrite !nodes_ensure_node. set_solver. }
  rewrite Hn in Hg. unfold add_edge.
  generalize dependent (ensure_node v (ensure_node u g)). clear Hg0.
  intros g' Hg _ w row; simpl.
  assert (Hdef : ∀ x, dom (default ∅ (_adj g' !! x)) ⊆ {[ u; v ]} ∪ nodes g).
  { intros x. destruct (_adj g' !! x) as [r|] eqn:Hx; simpl; [|set_solver].
    by destruct (Hg _ _ Hx). }
  rewrite !lookup_insert.
  destruct (decide (v = w)) as [->|Hvw].
  - intros [= <-]. split; [set_solver|]. rewrite dom_insert_L.
    destruct (decide (u = w)) as [->|Huw]; simpl.
    + rewrite dom_insert_L. specialize (Hdef w). set_solver.
    + specialize (Hdef w). set_solver.
  - destruct (decide (u = w)) as [->|Huw].
    + intros [= <-]. split; [set_solver|]. rewrite dom_insert_L.
      specialize (Hdef w). set_solver.
    + intros Hrow. destruct (Hg _ _ Hrow). set_solver.
Qed.

Lemma graph_closed_add_nodes_from src R :
  graph_closed R → graph_closed (add_nodes_from src R).
Proof.
  intros HR. unfold add_nodes_from.
  apply (map_fold_weak_ind (λ r _, graph_closed r)); [done|].
  intros; by apply graph_closed_add_node.
Qed.

Lemma graph_closed_add_edges_from src R :
  graph_closed R → graph_closed (add_edges_from src R).
Proof.
  intros HR. unfold add_edges_from.
  apply (map_fold_weak_ind (λ r _, graph_closed r)); [done|].
  intros u row _ r _ Hr.
  apply (map_fold_weak_ind (λ r' _, graph_closed r')); [done|].
  intros; by apply graph_closed_add_edge.
Qed.

Lemma graph_closed_compose G H : graph_closed (compose G H).
Proof.
  unfold compose.
  do 2 apply graph_closed_add_edges_from.
  do 2 apply graph_closed_add_nodes_from.
  apply graph_closed_nx_Graph.
Qed.

Lemma nodes_compose G H :
  graph_closed G → graph_closed H → nodes (compose G H) = nodes G ∪ nodes H.
Proof.
  intros HG HH. unfold compose.
  set (R0 := mkGraph _ ∅ ∅).
  assert (Hn : nodes (add_nodes_from (_node H) (add_nodes_from (_node G) R0))
               = nodes G ∪ nodes H).
  { assert (HR0 : nodes R0 = ∅) by apply dom_empty_L.
    rewrite !nodes_add_nodes_from, HR0. unfold nodes. set_solver. }
  rewrite nodes_add_edges_from; rewrite nodes_add_edges_from; rewrite ?Hn; try done.
  - intros u row Hrow. destruct (HG _ _ Hrow). set_solver.
  - intros u row Hrow. destruct (HH _ _ Hrow). set_solver.
  - intros u row Hrow. destruct (HG _ _ Hrow). set_solver.
Qed.

Lemma foldl_compose_spec rest : ∀ C,
  graph_closed C → Forall graph_closed rest →
  graph_closed (foldl compose C rest)
  ∧ nodes (foldl compose C rest) = nodes C ∪ ⋃ (nodes <$> rest).
Proof.
  induction rest as [|H rest IH]; intros C HC Hrest; simpl.
  - split; [done|]. set_solver.
  - apply Forall_cons in Hrest as [HH Hrest].
    destruct (IH (compose C H)) as [Hcl Hn]; [apply graph_closed_compose|done|].
    split; [done|]. rewrite Hn, nodes_compose by done. set_solver.
Qed.

(** [compose_all] returns on every non-empty list, and the nodes of its
    result are the nodes of the graphs it was given. *)
Lemma compose_all_nodes graphs g :
  Forall graph_closed graphs → compose_all graphs = Return g →
  nodes g = ⋃ (nodes <$> graphs).
Proof.
  destruct graphs as [|C rest]; simpl; [done|].
  intros Hall [= <-]. apply Forall_cons in Hall as [HC Hrest].
  by destruct (foldl_compose_spec rest C HC Hrest) as [_ ->].
Qed.

(** ** The methods of the Brain *)

Section MethodFacts.

Context (ext : Externals).

Lemma compile_without_reduce self :
  compile ext false self
  = (Return (), mkBrain (time_resolution self) nx_Graph true
                        (_neurons self) (_synapses self)).
Proof. reflexivity. Qed.

Local Notation synapse_body := (λ synapse : pyobj,
   u <- call (getitem ext synapse 0) ;;
   v <- call (getitem ext synapse 1) ;;
   d <- call (getitem ext synapse 2) ;;
   g <- attr _graph ;;
   g' <- call (add_edge_positional ext g u v d) ;;
   set_graph g')%py.

(** The synapse loop of [compile] reads and writes the graph and nothing
    else: its outcome and the graph it leaves are determined by the
    synapses and the graph it starts from. *)
Lemma synapse_loop_uniform synapses : ∀ g0, ∃ o g', ∀ t l ns ss,
  for_each synapses synapse_body (mkBrain t g0 l ns ss)
  = (o, mkBrain t g' l ns ss).
Proof.
  induction synapses as [|synapse rest IH]; intros g0.
  - by exists (Return ()), g0.
  - destruct (getitem ext synapse 0) as [u|e] eqn:Hu.
    2: { exists (Raise e), g0. intros. simpl. unfold bind, call. by rewrite Hu. }
    destruct (getitem ext synapse 1) as [v|e] eqn:Hv.
    2: { exists (Raise e), g0. intros. simpl. unfold bind, call.
         by rewrite Hu, Hv. }
    destruct (getitem ext synapse 2) as [d|e] eqn:Hd.
    2: { exists (Raise e), g0. intros. simpl. unfold bind, call.
         by rewrite Hu, Hv, Hd. }
    destruct (add_edge_positional ext g0 u v d) as [g1|e] eqn:Ha.
    2: { exists (Raise e), g0. intros. simpl. unfold bind, call, attr.
         rewrite Hu, Hv, Hd. simpl. by rewrite Ha. }
    destruct (IH g1) as (o & g' & Hrest). exists o, g'. intros t l ns ss.
    simpl. unfold bind at 1. unfold bind, call, attr.
    rewrite Hu, Hv, Hd. simpl. rewrite Ha. simpl.
    exact (Hrest t l ns ss).
Qed.

(** [compile] in one statement: the outcome and the graph it leaves are
    determined by [reduce] and the two collections; the flag is set and the
    collections and the time resolution stay, whatever the outcome. *)
Lemma compile_uniform reduce ns ss : ∃ o g', ∀ t g l,
  compile ext reduce (mkBrain t g l ns ss) = (o, mkBrain t g' true ns ss).
Proof.
  destruct reduce; [|by exists (Return ()), nx_Graph].
  destruct (compose_all ns) as [g0|e] eqn:Hc.
  - destruct (synapse_loop_uniform ss g0) as (o & g' & Hloop).
    exists o, g'. intros t g l.
    unfold compile. unfold bind at 1 2 3 4 5 6.
    unfold set_loaded, set_graph at 1 2, attr, call; simpl.
    rewrite Hc. exact (Hloop t true ns ss).
  - exists (Raise e), nx_Graph. intros t g l.
    unfold compile, bind, set_loaded, set_graph, attr, call; simpl.
    by rewrite Hc.
Qed.

Lemma compile_frame reduce self :
  ∃ g, state_of (compile ext reduce self)
       = mkBrain (time_resolution self) g true (_neurons self) (_synapses self).
Proof.
  destruct self as [t g l ns ss]; simpl.
  destruct (compile_uniform reduce ns ss) as (o & g' & ->). by exists g'.
Qed.

Lemma compile_sets_loaded reduce self :
  loaded (state_of (compile ext reduce self)) = true.
Proof. by destruct (compile_frame reduce self) as [g ->]. Qed.

(** With no synapse recorded, [compile(True)] is [nx.compose_all] on the
    neurons. *)
Lemma compile_no_synapses self :
  _synapses self = [] →
  compile ext true self
  = match compose_all (_neurons self) with
    | Return g =>
        (Return (), mkBrain (time_resolution self) g true (_neurons self) [])
    | Raise e =>
        (Raise e, mkBrain (time_resolution self) nx_Graph true (_neurons self) [])
    end.
Proof.
  intros Hs. unfold compile, bind, set_loaded, set_graph, attr, call; simpl.
  rewrite Hs. by destruct (compose_all (_neurons self)).
Qed.

Lemma add_neuron_loaded x self :
  loaded self = true →
  add_neuron x self
  = (Raise (match isinstance_Neuron x with
            | Some _ => RuntimeError
            | None => TypeError
            end), self).
Proof.
  intros Hl. unfold add_neuron. destruct (isinstance_Neuron x); [|done].
  unfold bind, attr; simpl. by rewrite Hl.
Qed.

Lemma add_neuron_building n self :
  loaded self = false →
  add_neuron (ONeuron n) self
  = (Return (), mkBrain (time_resolution self) (_graph self) false
                        (_neurons self ++ [n]) (_synapses self)).
Proof.
  intros Hl. unfold add_neuron, bind, attr, call, set_neurons; simpl.
  rewrite Hl; simpl. by rewrite Hl.
Qed.

Lemma add_synapse_raises synapse source sink self :
  add_synapse synapse source sink self = (Raise TypeError, self).
Proof. reflexivity. Qed.

(** No method ever clears the flag. *)
Lemma perform_keeps_loaded self c :
  loaded self = true → loaded (perform ext self c) = true.
Proof.
  intros Hl. destruct c as [reduce| |key|x|synapse source sink]; simpl;
    try done.
  - apply compile_sets_loaded.
  - by rewrite add_neuron_loaded.
Qed.

Lemma perform_all_keeps_loaded calls : ∀ self,
  loaded self = true → loaded (perform_all ext self calls) = true.
Proof.
  induction calls as [|c calls IH]; intros self Hl; [done|].
  apply IH. by apply perform_keeps_loaded.
Qed.

(** The synapse sequence of a Brain that a client can hold is empty. *)
Lemma reachable_no_synapses self : reachable ext self → _synapses self = [].
Proof.
  induction 1 as [t|self c _ IH]; [done|].
  destruct c as [reduce| |key|x|synapse source sink]; simpl; try done.
  - by destruct (compile_frame reduce self) as [g ->].
  - unfold add_neuron. destruct (isinstance_Neuron x); [|done].
    unfold bind, attr; simpl. by destruct (loaded self).
Qed.

Lemma reachable_perform_all calls : ∀ self,
  reachable ext self → reachable ext (perform_all ext self calls).
Proof.
  induction calls as [|c calls IH]; intros self Hr; [done|].
  apply IH. by constructor.
Qed.

Lemma program_no_synapses t calls :
  _synapses (perform_all ext (__init__ t) calls) = [].
Proof. apply reachable_no_synapses, reachable_perform_all. constructor. Qed.

Lemma perform_add_neurons ns : ∀ self,
  loaded self = false →
  perform_all ext self (add_neurons ns)
  = mkBrain (time_resolution self) (_graph self) false
            (_neurons self ++ ns) (_synapses self).
Proof.
  induction ns as [|n ns IH]; intros self Hl; simpl.
  - rewrite app_nil_r. destruct self; simpl in *; by subst.
  - change (perform_all ext self (add_neurons (n :: ns)))
      with (perform_all ext (state_of (add_neuron (ONeuron n) self)) (add_neurons ns)).
    rewrite add_neuron_building by done.
    rewrite IH by done. simpl. by rewrite <-app_assoc.
Qed.

End MethodFacts.

(** ** The claims *)

(** C1 (as amended).  Once [compile] has been called on a Brain, whatever
    its outcome and whatever calls follow it, [add_neuron] fails and changes
    nothing: with a LifecycleError when it is given a Neuron, with an
    InvalidArgument when it is given anything else, the type test coming
    first.  [add_synapse] changes nothing either. *)
Theorem add_after_compile_rejected
    (ext : Externals) (reduce : bool) (self0 : Brain) (calls : list method_call) :
  let self := perform_all ext (state_of (compile ext reduce self0)) calls in
  (∀ x, add_neuron x self
        = (Raise (match isinstance_Neuron x with
                  | Some _ => LifecycleError
                  | None => InvalidArgument
                  end), self))
  ∧ (∀ synapse source sink,
       state_of (add_synapse synapse source sink self) = self).
Proof.
  intros self.
  assert (Hl : loaded self = true).
  { apply perform_all_keeps_loaded, compile_sets_loaded. }
  split.
  - intros x. by apply add_neuron_loaded.
  - intros. by rewrite add_synapse_raises.
Qed.

(** C1, as stated, fails: on a compiled Brain, [add_neuron(42)] raises
    the TypeError of the type test and [add_synapse] raises the TypeError
    of [list.append]; neither is the LifecycleError. *)
Lemma add_after_compile_not_lifecycle :
  let self := perform_all networkx2 (__init__ None)
                [CallAddNeuron (ONeuron (single_segment "n1")); CallCompile true] in
  let source := key_obj (seg "n1" "p1") in
  let sink := key_obj (seg "n2" "p1") in
  loaded self = true
  ∧ outcome_of (add_neuron (OInt 42) self) = Raise TypeError
  ∧ outcome_of (add_neuron (OInt 42) self) ≠ Raise LifecycleError
  ∧ outcome_of (add_synapse (OSynapse {[ "weight" := 1 ]}) source sink self)
    = Raise TypeError
  ∧ outcome_of (add_synapse (OSynapse {[ "weight" := 1 ]}) source sink self)
    ≠ Raise LifecycleError.
Proof. repeat split; done. Qed.

(** C2, at the failing input: a Brain holding the one neuron A - B - C - D
    and compiled with [reduce=True].  The compiled graph is the neuron's
    graph as it was: B and C, both of degree 2, are still nodes, the three
    edges of the path are still there, and there is no edge A - D. *)
Theorem compile_keeps_chain (ext : Externals) :
  let self := perform_all ext (__init__ None)
                [CallAddNeuron (ONeuron chain); CallCompile true] in
  let g := _graph self in
  g = chain
  ∧ degree g (seg "n" "B") = 2%nat ∧ degree g (seg "n" "C") = 2%nat
  ∧ seg "n" "B" ∈ nodes g ∧ seg "n" "C" ∈ nodes g
  ∧ has_edge g (seg "n" "A") (seg "n" "B") = true
  ∧ has_edge g (seg "n" "B") (seg "n" "C") = true
  ∧ has_edge g (seg "n" "C") (seg "n" "D") = true
  ∧ has_edge g (seg "n" "A") (seg "n" "D") = false.
Proof.
  intros self g.
  assert (Hg : g = chain) by reflexivity.
  rewrite Hg. repeat split; vm_compute; reflexivity.
Qed.

(** C3, at the failing input: [add_synapse] on a Brain that has just been
    built, with a synapse and two well-formed segment keys.  The call
    raises the TypeError of [list.append] and the synapse sequence is still
    empty. *)
Theorem add_synapse_building_fails
    (t : option Z) (w : Synapse) (source sink : SegmentKey) :
  let result := add_synapse (OSynapse w) (key_obj source) (key_obj sink)
                            (__init__ t) in
  loaded (__init__ t) = false
  ∧ outcome_of result = Raise TypeError
  ∧ _synapses (state_of result) = [].
Proof. done. Qed.

(** C4.  Neurons added to a fresh Brain, which is then compiled with
    [reduce=True]: the node set of the Brain's graph is the union of the
    neurons' segment keys.  With at least one neuron the call returns; with
    none [compose_all] raises and the graph is the empty one, whose node
    set is the empty union.  The neurons need not be disjoint. *)
Theorem compile_node_set
    (ext : Externals) (t : option Z) (ns : list Neuron) :
  Forall graph_closed ns →
  let self := perform_all ext (__init__ t) (add_neurons ns) in
  let result := compile ext true self in
  _neurons self = ns
  ∧ nodes (_graph (state_of result)) = ⋃ (nodes <$> ns)
  ∧ outcome_of result = match ns with [] => Raise ValueError | _ => Return () end.
Proof.
  intros Hns self result. subst result self.
  rewrite perform_add_neurons by done. simpl.
  split; [done|]. rewrite compile_no_synapses by done; simpl.
  destruct ns as [|C rest]; [done|]. simpl. split; [|done].
  apply Forall_cons in Hns as [HC Hrest].
  by destruct (foldl_compose_spec rest C HC Hrest) as [_ ->].
Qed.

(** C4 on two single-segment neurons. *)
Lemma compile_node_set_witness :
  let ns := [single_segment "n1"; single_segment "n2"] in
  let self := perform_all networkx2 (__init__ None) (add_neurons ns) in
  let result := compile networkx2 true self in
  Forall graph_closed ns
  ∧ (_neurons self = ns
     ∧ nodes (_graph (state_of result)) = ⋃ (nodes <$> ns)
     ∧ outcome_of result = Return ()).
Proof.
  intros ns self result.
  assert (Hns : Forall graph_closed ns).
  { apply Forall_cons; split; [|apply Forall_cons; split; [|apply Forall_nil]];
      apply (bool_decide_unpack _); vm_compute; exact I. }
  split; [exact Hns|].
  exact (compile_node_set networkx2 None ns Hns).
Defined.

(** C5, at the failing input: two single-segment neurons, a synapse
    declared between them, then [compile(True)].  The declaration raises
    and records nothing, so the compiled graph has the two nodes and no
    edge between them. *)
Theorem declared_synapse_not_compiled (ext : Externals) :
  let s := seg "n1" "p1" in
  let t := seg "n2" "p1" in
  let building := perform_all ext (__init__ None)
                    [CallAddNeuron (ONeuron (single_segment "n1"));
                     CallAddNeuron (ONeuron (single_segment "n2"))] in
  let declared := add_synapse (OSynapse {[ "weight" := 1 ]})
                              (key_obj s) (key_obj t) building in
  let result := compile ext true (state_of declared) in
  outcome_of declared = Raise TypeError
  ∧ _synapses (state_of declared) = []
  ∧ outcome_of result = Return ()
  ∧ nodes (_graph (state_of result)) = {[ s; t ]}
  ∧ get_edge_data (_graph (state_of result)) s t = None
  ∧ get_edge_data (_graph (state_of result)) t s = None.
Proof. repeat split; vm_compute; reflexivity. Qed.

(** C6.  [compile(False)] returns and leaves a fresh empty graph in place of
    whatever graph the Brain had: no node and no edge, the neurons and the
    synapses untouched, the flag set. *)
Theorem compile_without_reduce_is_empty (ext : Externals) (self : Brain) :
  let result := compile ext false self in
  outcome_of result = Return ()
  ∧ _graph (state_of result) = nx_Graph
  ∧ nodes (_graph (state_of result)) = ∅
  ∧ (∀ u v, get_edge_data (_graph (state_of result)) u v = None)
  ∧ _neurons (state_of result) = _neurons self
  ∧ _synapses (state_of result) = _synapses self
  ∧ loaded (state_of result) = true.
Proof.
  intros result. subst result. rewrite compile_without_reduce. simpl.
  repeat split; done.
Qed.

(** C7, at the failing input: two single-segment neurons, the declaration
    of a synapse between them, [compile(True)], then [run()].  [run] raises
    NotImplementedError; it returns no success indicator. *)
Theorem run_raises (ext : Externals) :
  let self := perform_all ext (__init__ (Some 500000))
                [CallAddNeuron (ONeuron (single_segment "n1"));
                 CallAddNeuron (ONeuron (single_segment "n2"));
                 CallAddSynapse (OSynapse {[ "weight" := 1 ]})
                   (key_obj (seg "n1" "p1")) (key_obj (seg "n2" "p1"));
                 CallCompile true] in
  loaded self = true
  ∧ run self = (Raise NotImplementedError, self)
  ∧ ∀ ok : bool, outcome_of (run self) ≠ Return ok.
Proof. repeat split; done. Qed.

(** C8.  A second [compile] with the same [reduce] leaves the same graph as
    the first, with the same outcome: [compile] does not touch the
    collections, and the graph it leaves is rebuilt from them alone, the
    graph, the flag and the time resolution held before playing no part. *)
Theorem compile_twice_same_graph
    (ext : Externals) (reduce : bool) (self : Brain) :
  let once := compile ext reduce self in
  let twice := compile ext reduce (state_of once) in
  _neurons (state_of once) = _neurons self
  ∧ _synapses (state_of once) = _synapses self
  ∧ _graph (state_of twice) = _graph (state_of once)
  ∧ outcome_of twice = outcome_of once
  ∧ ∀ t g l,
      let other := compile ext reduce
                     (mkBrain t g l (_neurons self) (_synapses self)) in
      _graph (state_of other) = _graph (state_of once)
      ∧ outcome_of other = outcome_of once.
Proof.
  intros once twice. subst twice once.
  destruct self as [t0 g0 l0 ns ss]; simpl.
  destruct (compile_uniform ext reduce ns ss) as (o & g' & Hc).
  rewrite !Hc; simpl. rewrite Hc; simpl. repeat split; try done.
  all: intros; by rewrite Hc.
Qed.

(** C9.  [add_synapse] raises on every Brain and for all arguments, at the
    [append] that was to record the synapse; the Brain, its synapse sequence
    included, is as it was before the call. *)
Theorem add_synapse_always_raises
    (self : Brain) (synapse source sink : pyobj) :
  let result := add_synapse synapse source sink self in
  raises (outcome_of result)
  ∧ outcome_of result = Raise TypeError
  ∧ _synapses (state_of result) = _synapses self
  ∧ state_of result = self.
Proof. repeat split; try done. by exists TypeError. Qed.

(** C10 (as amended).  [compile] sets the flag before it builds anything:
    the flag is set whatever the outcome, also when [compile(True)] raises
    on a Brain without neurons.  From then on, whatever calls follow, every
    [add_neuron] is rejected and changes nothing: as a call made after
    [compile] when it is given a Neuron, by the type test when it is given
    anything else. *)
Theorem compile_failure_leaves_compiled
    (ext : Externals) (reduce : bool) (self0 : Brain)
    (t : Z) (g : Graph) (l : bool) (synapses : list pyobj)
    (calls : list method_call) :
  loaded (state_of (compile ext reduce self0)) = true
  ∧ let result := compile ext true (mkBrain t g l [] synapses) in
    let self := perform_all ext (state_of result) calls in
    outcome_of result = Raise ValueError
    ∧ loaded (state_of result) = true
    ∧ loaded self = true
    ∧ ∀ x, add_neuron x self
           = (Raise (match isinstance_Neuron x with
                     | Some _ => RuntimeError
                     | None => TypeError
                     end), self).
Proof.
  split; [apply compile_sets_loaded|].
  intros result self.
  assert (Hl : loaded self = true).
  { apply perform_all_keeps_loaded, compile_sets_loaded. }
  repeat split; try done.
  intros x. by apply add_neuron_loaded.
Qed.

(** C10, as stated, fails: after a [compile(True)] that raised on an empty
    Brain, [add_neuron(42)] is rejected by the type test, not as a call made
    after [compile]. *)
Lemma add_neuron_after_failed_compile_type_error :
  let result := compile networkx2 true (__init__ None) in
  outcome_of result = Raise ValueError
  ∧ loaded (state_of result) = true
  ∧ outcome_of (add_neuron (OInt 42) (state_of result)) = Raise TypeError
  ∧ outcome_of (add_neuron (OInt 42) (state_of result)) ≠ Raise RuntimeError.
Proof. repeat split; done. Qed.

(** * Further properties *)

(** ** Edges of composed graphs *)

Lemma lookup_default_row (m : gmap SegmentKey (gmap SegmentKey AttrDict)) a b :
  default ∅ (m !! a) !! b = m !! a ≫= (λ row, row !! b).
Proof. destruct (m !! a); simpl; [done|apply lookup_empty]. Qed.

Lemma closed_row_node g n row :
  graph_closed g → _adj g !! n = Some row → is_Some (_node g !! n).
Proof.
  intros Hg Hrow. destruct (Hg _ _ Hrow) as [Hin _].
  unfold nodes in Hin. by apply elem_of_dom in Hin.
Qed.

Lemma get_edge_data_ensure_node n g a b :
  graph_closed g →
  get_edge_data (ensure_node n g) a b = get_edge_data g a b.
Proof.
  intros Hg. unfold ensure_node, get_edge_data.
  destruct (_node g !! n) eqn:Hn; [done|]. simpl.
  rewrite lookup_insert. case_decide as Ha; [|done]. subst a. simpl.
  rewrite lookup_empty.
  destruct (_adj g !! n) as [row|] eqn:Hrow; [|done].
  destruct (closed_row_node _ _ _ Hg Hrow) as [? Hin]. congruence.
Qed.

(** The data that [add_edge u v] stores, and where: on [(u, v)] and
    [(v, u)], and nowhere else. *)
Lemma get_edge_data_add_edge u v d g a b :
  graph_closed g →
  get_edge_data (add_edge u v d g) a b
  = if decide ((a = u ∧ b = v) ∨ (a = v ∧ b = u))
    then Some (update_attr (default ∅ (get_edge_data g u v)) d)
    else get_edge_data g a b.
Proof.
  intros Hg.
  assert (Hg1 : graph_closed (ensure_node u g)) by by apply graph_closed_ensure_node.
  assert (He : ∀ x y, get_edge_data (ensure_node v (ensure_node u g)) x y
                      = get_edge_data g x y).
  { intros. by rewrite !get_edge_data_ensure_node. }
  unfold add_edge. rewrite He.
  set (g' := ensure_node v (ensure_node u g)) in *.
  set (dd := update_attr _ d).
  unfold get_edge_data at 1; simpl.
  rewrite <-(He a b). unfold get_edge_data.
  destruct (decide (a = v)) as [->|Hav].
  - rewrite lookup_insert_eq; simpl.
    destruct (decide (b = u)) as [->|Hbu].
    + rewrite lookup_insert_eq. by rewrite decide_True by auto.
    + rewrite lookup_insert_ne by done. rewrite lookup_default_row.
      destruct (decide (u = v)) as [->|Huv].
      * rewrite lookup_insert_eq; simpl. rewrite lookup_insert_ne by done.
        rewrite lookup_default_row. by rewrite decide_False by naive_solver.
      * rewrite lookup_insert_ne by done. by rewrite decide_False by naive_solver.
  - rewrite lookup_insert_ne by done.
    destruct (decide (a = u)) as [->|Hau].
    + rewrite lookup_insert_eq; simpl.
      destruct (decide (b = v)) as [->|Hbv].
      * rewrite lookup_insert_eq. by rewrite decide_True by auto.
      * rewrite lookup_insert_ne by done. rewrite lookup_default_row.
        by rewrite decide_False by naive_solver.
    + rewrite lookup_insert_ne by done. by rewrite decide_False by naive_solver.
Qed.

Lemma get_edge_data_add_node n attr g a b :
  graph_closed g →
  get_edge_data (add_node n attr g) a b = get_edge_data g a b.
Proof.
  intros Hg. unfold add_node, get_edge_data.
  destruct (_node g !! n) eqn:Hn; [done|]. simpl.
  rewrite lookup_insert. case_decide as Ha; [|done]. subst a. simpl.
  rewrite lookup_empty.
  destruct (_adj g !! n) as [row|] eqn:Hrow; [|done].
  destruct (closed_row_node _ _ _ Hg Hrow) as [? Hin]. congruence.
Qed.

Local Abbreviation linked g a b := (is_Some (get_edge_data g a b)).

Lemma edges_add_row (u : SegmentKey) (row : gmap SegmentKey AttrDict) (R : Graph) :
  graph_closed R →
  graph_closed (map_fold (λ v d R, add_edge u v d R) R row)
  ∧ ∀ a b, linked (map_fold (λ v d R, add_edge u v d R) R row) a b
           ↔ linked R a b ∨ (is_Some (row !! b) ∧ a = u)
             ∨ (is_Some (row !! a) ∧ b = u).
Proof.
  intros HR.
  apply (map_fold_weak_ind (λ r (m : gmap SegmentKey AttrDict),
    graph_closed r
    ∧ ∀ a b, linked r a b
             ↔ linked R a b ∨ (is_Some (m !! b) ∧ a = u)
               ∨ (is_Some (m !! a) ∧ b = u))).
  - split; [done|]. intros a b. rewrite !lookup_empty.
    pose proof (@is_Some_None AttrDict). naive_solver.
  - intros v d m r Hfresh [Hr IH]. split; [by apply graph_closed_add_edge|].
    intros a b. rewrite get_edge_data_add_edge by done.
    rewrite !lookup_insert_is_Some. case_decide as Hab.
    + split; [|by eauto]. intros _. naive_solver.
    + rewrite IH. naive_solver.
Qed.

Lemma edges_add_edges_from src R :
  graph_closed R →
  ∀ a b, linked (add_edges_from src R) a b
         ↔ linked R a b
           ∨ is_Some (src !! a ≫= λ row, row !! b)
           ∨ is_Some (src !! b ≫= λ row, row !! a).
Proof.
  intros HR. unfold add_edges_from.
  refine (proj2 (map_fold_weak_ind (λ r (m : gmap SegmentKey (gmap SegmentKey AttrDict)),
    graph_closed r
    ∧ ∀ a b, linked r a b
             ↔ linked R a b
               ∨ is_Some (m !! a ≫= λ row, row !! b)
               ∨ is_Some (m !! b ≫= λ row, row !! a)) _ R _ _ src)).
  - split; [done|]. intros a b. rewrite !lookup_empty. simpl.
    pose proof (@is_Some_None AttrDict). naive_solver.
  - intros u row m r Hfresh [Hr IH].
    destruct (edges_add_row u row r Hr) as [Hcl Hrow]. split; [done|].
    intros a b. rewrite Hrow, IH.
    assert (Hl : ∀ x y, is_Some (<[u:=row]> m !! x ≫= λ row, row !! y)
                        ↔ (x = u ∧ is_Some (row !! y))
                          ∨ is_Some (m !! x ≫= λ row, row !! y)).
    { intros x y. destruct (decide (x = u)) as [->|Hx].
      - rewrite lookup_insert_eq, Hfresh; simpl.
        pose proof (@is_Some_None AttrDict). naive_solver.
      - rewrite lookup_insert_ne by done. naive_solver. }
    rewrite !Hl. naive_solver.
Qed.

Lemma edges_add_nodes_from src R :
  graph_closed R →
  ∀ a b, get_edge_data (add_nodes_from src R) a b = get_edge_data R a b.
Proof.
  intros HR a b. unfold add_nodes_from.
  refine (proj2 (map_fold_weak_ind (λ r (_ : gmap SegmentKey AttrDict),
    graph_closed r ∧ get_edge_data r a b = get_edge_data R a b) _ R _ _ src)).
  - done.
  - intros n d m r _ [Hr IH]. split; [by apply graph_closed_add_node|].
    by rewrite get_edge_data_add_node.
Qed.

(** The edges of [nx.compose(G, H)] are the edges of [G] and of [H], each
    stored for both of its ends. *)
Lemma edges_compose G H a b :
  linked (compose G H) a b
  ↔ linked G a b ∨ linked G b a ∨ linked H a b ∨ linked H b a.
Proof.
  unfold compose. set (R0 := mkGraph _ ∅ ∅).
  assert (H0 : graph_closed R0) by apply graph_closed_nx_Graph.
  assert (H1 : graph_closed (add_nodes_from (_node G) R0))
    by by apply graph_closed_add_nodes_from.
  assert (H2 : graph_closed (add_nodes_from (_node H) (add_nodes_from (_node G) R0)))
    by by apply graph_closed_add_nodes_from.
  rewrite edges_add_edges_from by by apply graph_closed_add_edges_from.
  rewrite edges_add_edges_from by done.
  rewrite !edges_add_nodes_from by done.
  assert (He : ¬ linked R0 a b).
  { unfold get_edge_data; simpl. rewrite lookup_empty. simpl. apply is_Some_None. }
  unfold get_edge_data. unfold get_edge_data in He. naive_solver.
Qed.

Lemma edges_foldl_compose a b rest : ∀ C,
  (∀ n, n ∈ C :: rest → linked n a b → linked (foldl compose C rest) a b)
  ∧ (linked (foldl compose C rest) a b
     → ∃ n, n ∈ C :: rest ∧ (linked n a b ∨ linked n b a)).
Proof.
  induction rest as [|H rest IH]; intros C; simpl.
  - split.
    + intros n Hn. apply list_elem_of_singleton in Hn. by subst.
    + intros Hl. exists C. split; [apply list_elem_of_here|by left].
  - destruct (IH (compose C H)) as [IH1 IH2]. split.
    + intros n Hn Hl. apply elem_of_cons in Hn as [->|Hn].
      * apply (IH1 (compose C H)); [apply list_elem_of_here|].
        apply edges_compose. by left.
      * apply elem_of_cons in Hn as [->|Hn].
        -- apply (IH1 (compose C H)); [apply list_elem_of_here|].
           apply edges_compose. by right; right; left.
        -- apply (IH1 n); [by apply list_elem_of_further|done].
    + intros Hl. destruct (IH2 Hl) as (n & Hn & Hln).
      apply elem_of_cons in Hn as [->|Hn].
      * assert (Hc : linked C a b ∨ linked C b a ∨ linked H a b ∨ linked H b a).
        { destruct Hln as [Hln|Hln]; apply edges_compose in Hln; naive_solver. }
        destruct Hc as [?|[?|[?|?]]].
        -- exists C. split; [apply list_elem_of_here|by left].
        -- exists C. split; [apply list_elem_of_here|by right].
        -- exists H. split; [apply list_elem_of_further, list_elem_of_here|by left].
        -- exists H. split; [apply list_elem_of_further, list_elem_of_here|by right].
      * exists n. split; [by do 2 apply list_elem_of_further|done].
Qed.

(** ** The life of a Brain *)

Section Lifecycle.

Context (ext : Externals).

Lemma perform_all_cons self c calls :
  perform_all ext self (c :: calls) = perform_all ext (perform ext self c) calls.
Proof. reflexivity. Qed.

(** What one call of [add_neuron] can do. *)
Lemma add_neuron_cases x self :
  (add_neuron x self = (Raise TypeError, self) ∧ isinstance_Neuron x = None)
  ∨ (add_neuron x self = (Raise RuntimeError, self) ∧ loaded self = true)
  ∨ ∃ n, x = ONeuron n ∧ loaded self = false
         ∧ add_neuron x self
           = (Return (), mkBrain (time_resolution self) (_graph self) false
                                 (_neurons self ++ [n]) (_synapses self)).
Proof.
  destruct x as [| | | |n|]; try (by left).
  destruct (loaded self) eqn:Hl.
  - right; left. split; [|done]. by rewrite add_neuron_loaded.
  - right; right. exists n. by rewrite add_neuron_building.
Qed.

Lemma perform_time_resolution self c :
  time_resolution (perform ext self c) = time_resolution self.
Proof.
  destruct c as [reduce| |key|x|synapse source sink]; simpl; try done.
  - by destruct (compile_frame ext reduce self) as [g ->].
  - destruct (add_neuron_cases x self) as [[-> _]|[[-> _]|(n & _ & _ & ->)]]; done.
Qed.

Lemma perform_not_compile self c :
  is_compile c = false →
  _graph (perform ext self c) = _graph self
  ∧ loaded (perform ext self c) = loaded self
  ∧ _synapses (perform ext self c) = _synapses self.
Proof.
  destruct c as [reduce| |key|x|synapse source sink]; simpl; try done.
  intros _.
  destruct (add_neuron_cases x self) as [[-> _]|[[-> _]|(n & _ & Hl & ->)]];
    simpl; by rewrite ?Hl.
Qed.

Lemma perform_loaded_frozen self c :
  loaded self = true →
  _neurons (perform ext self c) = _neurons self
  ∧ _synapses (perform ext self c) = _synapses self.
Proof.
  intros Hl. destruct c as [reduce| |key|x|synapse source sink]; simpl; try done.
  - by destruct (compile_frame ext reduce self) as [g ->].
  - by rewrite add_neuron_loaded.
Qed.

Lemma perform_neurons_prefix self c :
  _neurons self `prefix_of` _neurons (perform ext self c).
Proof.
  destruct c as [reduce| |key|x|synapse source sink]; simpl; try done.
  - by destruct (compile_frame ext reduce self) as [g ->].
  - destruct (add_neuron_cases x self) as [[-> _]|[[-> _]|(n & _ & _ & ->)]];
      simpl; try done. by apply prefix_app_r.
Qed.

Lemma reachable_graph_invariant self : reachable ext self → graph_invariant self.
Proof.
  induction 1 as [t|self c _ [Hs Hg]]; [done|].
  destruct c as [reduce| |key|x|synapse source sink]; simpl; try done.
  - destruct reduce.
    + rewrite compile_no_synapses by done.
      destruct (compose_all (_neurons self)) eqn:Hc; split; simpl; auto.
    + rewrite compile_without_reduce. split; simpl; auto.
  - destruct (add_neuron_cases x self) as [[-> _]|[[-> _]|(n & _ & Hl & ->)]];
      try done. rewrite Hl in Hg. split; simpl; done.
Qed.

End Lifecycle.



(** X2.  No method writes the time resolution: after any calls a Brain has
    the resolution it was created with, 500000 ns when none was given. *)
Theorem time_resolution_is_kept
    (ext : Externals) (t : option Z) (calls : list method_call) :
  time_resolution (perform_all ext (__init__ t) calls) = default 500000 t.
Proof.
  change (default 500000 t) with (time_resolution (__init__ t)).
  generalize (__init__ t). induction calls as [|c calls IH]; intros self; [done|].
  by rewrite perform_all_cons, IH, perform_time_resolution.
Qed.

(** X3.  Only [compile] writes the graph and the flag: calls of
    [add_neuron], [add_synapse], [run] and of the subscript, returning or
    raising, leave the graph, the flag and the synapses as they were. *)
Theorem only_compile_writes_graph
    (ext : Externals) (self : Brain) (calls : list method_call) :
  Forall (λ c, is_compile c = false) calls →
  _graph (perform_all ext self calls) = _graph self
  ∧ loaded (perform_all ext self calls) = loaded self
  ∧ _synapses (perform_all ext self calls) = _synapses self.
Proof.
  revert self. induction calls as [|c calls IH]; intros self Hc; [done|].
  apply Forall_cons in Hc as [Hc Hcalls]. rewrite perform_all_cons.
  destruct (perform_not_compile ext self c Hc) as (Hg & Hl & Hs).
  destruct (IH (perform ext self c) Hcalls) as (Hg' & Hl' & Hs').
  by rewrite Hg', Hl', Hs'.
Qed.

(** X3 on a compiled Brain: the graph stays after further calls. *)
Lemma only_compile_writes_graph_witness :
  let self := perform_all networkx2 (__init__ None)
                [CallAddNeuron (ONeuron chain); CallCompile true] in
  let calls := [CallAddNeuron (ONeuron (single_segment "n1")); CallRun;
                CallGetitem (key_obj (seg "n" "A"));
                CallAddSynapse ONone (key_obj (seg "n" "A")) (key_obj (seg "n" "B"))] in
  Forall (λ c, is_compile c = false) calls
  ∧ (_graph (perform_all networkx2 self calls) = _graph self
     ∧ loaded (perform_all networkx2 self calls) = loaded self
     ∧ _synapses (perform_all networkx2 self calls) = _synapses self).
Proof.
  intros self calls.
  assert (Hc : Forall (λ c, is_compile c = false) calls).
  { unfold calls. repeat constructor. }
  split; [exact Hc|].
  exact (only_compile_writes_graph networkx2 self calls Hc).
Defined.

(** X4.  [compile] freezes the collections: after it, whatever its outcome
    and whatever calls follow, recompilations included, the neuron sequence
    and the synapse sequence are those the Brain had when [compile] was
    called. *)
Theorem collections_frozen_after_compile
    (ext : Externals) (reduce : bool) (self0 : Brain) (calls : list method_call) :
  let self := perform_all ext (state_of (compile ext reduce self0)) calls in
  _neurons self = _neurons self0 ∧ _synapses self = _synapses self0.
Proof.
  intros self. subst self.
  destruct (compile_frame ext reduce self0) as [g ->].
  assert (Hgen : ∀ self, loaded self = true →
            _neurons (perform_all ext self calls) = _neurons self
            ∧ _synapses (perform_all ext self calls) = _synapses self).
  { induction calls as [|c calls IH]; intros self Hl; [done|].
    rewrite perform_all_cons.
    destruct (perform_loaded_frozen ext self c Hl) as [Hn Hs].
    destruct (IH (perform ext self c)) as [Hn' Hs'];
      [by apply perform_keeps_loaded|].
    by rewrite Hn', Hs'. }
  by destruct (Hgen (mkBrain (time_resolution self0) g true
                              (_neurons self0) (_synapses self0))).
Qed.

(** X5.  No method removes or reorders neurons: the neuron sequence a Brain
    has at any time is a prefix of the one it has after any further
    calls. *)
Theorem neurons_only_grow
    (ext : Externals) (self : Brain) (calls : list method_call) :
  _neurons self `prefix_of` _neurons (perform_all ext self calls).
Proof.
  revert self. induction calls as [|c calls IH]; intros self; [done|].
  rewrite perform_all_cons.
  etrans; [apply (perform_neurons_prefix ext self c)|apply IH].
Qed.

(** X6.  The graph of a Brain that a client can hold: empty as long as
    [compile] has not been called, and afterwards either empty or what
    [nx.compose_all] makes of the Brain's neurons; no synapse is ever part
    of it. *)
Theorem graph_of_program
    (ext : Externals) (t : option Z) (calls : list method_call) :
  let self := perform_all ext (__init__ t) calls in
  _synapses self = []
  ∧ if loaded self
    then _graph self = nx_Graph ∨ compose_all (_neurons self) = Return (_graph self)
    else _graph self = nx_Graph.
Proof.
  apply (reachable_graph_invariant ext), reachable_perform_all. constructor.
Qed.

(** X7.  On a Brain that a client can hold, [compile(True)] raises exactly
    when no neuron has been added, and then with the ValueError of
    [nx.compose_all]; [compile(False)] always returns. *)
Theorem compile_raises_without_neurons
    (ext : Externals) (t : option Z) (calls : list method_call) :
  let self := perform_all ext (__init__ t) calls in
  outcome_of (compile ext true self)
  = match _neurons self with [] => Raise ValueError | _ => Return () end
  ∧ outcome_of (compile ext false self) = Return ().
Proof.
  intros self. split; [|done].
  rewrite compile_no_synapses by apply program_no_synapses.
  by destruct (_neurons self).
Qed.

(** X8.  The flag is never cleared: a Brain that has been compiled stays
    compiled through every further call. *)
Theorem no_way_back_to_building
    (ext : Externals) (self : Brain) (calls : list method_call) :
  loaded self = true → loaded (perform_all ext self calls) = true.
Proof. apply perform_all_keeps_loaded. Qed.

(** X8 on a Brain compiled without neurons. *)
Lemma no_way_back_to_building_witness :
  let self := state_of (compile networkx2 true (__init__ None)) in
  let calls := [CallCompile false; CallAddNeuron (ONeuron chain); CallRun] in
  loaded self = true ∧ loaded (perform_all networkx2 self calls) = true.
Proof.
  intros self calls. split; [reflexivity|].
  exact (no_way_back_to_building networkx2 self calls eq_refl).
Defined.

(** ** Edges through [compile] *)

Lemma has_edge_linked g a b :
  has_edge g a b = true ↔ is_Some (get_edge_data g a b).
Proof. unfold has_edge. apply bool_decide_eq_true. Qed.

(** X9.  [compile(True)] keeps every internal edge: two segments that are
    joined by an edge in one of the Brain's neurons are joined by an edge in
    the compiled graph. *)
Theorem compile_keeps_edges
    (ext : Externals) (t : option Z) (calls : list method_call)
    (n : Neuron) (a b : SegmentKey) :
  let self := perform_all ext (__init__ t) calls in
  n ∈ _neurons self →
  has_edge n a b = true →
  has_edge (_graph (state_of (compile ext true self))) a b = true.
Proof.
  intros self Hn Hab.
  rewrite compile_no_synapses by apply program_no_synapses.
  destruct (_neurons self) as [|C rest]; [by apply elem_of_nil in Hn|]. simpl.
  apply has_edge_linked. apply has_edge_linked in Hab.
  by apply (proj1 (edges_foldl_compose a b rest C) n).
Qed.

(** X9 on a Brain of two neurons, for the edge A - B of the second. *)
Lemma compile_keeps_edges_witness :
  let self := perform_all networkx2 (__init__ None)
                (add_neurons [single_segment "n1"; chain]) in
  chain ∈ _neurons self
  ∧ has_edge chain (seg "n" "A") (seg "n" "B") = true
  ∧ has_edge (_graph (state_of (compile networkx2 true self)))
             (seg "n" "A") (seg "n" "B") = true.
Proof.
  intros self.
  assert (Hn : chain ∈ _neurons self).
  { change (_neurons self) with [single_segment "n1"; chain].
    apply list_elem_of_further, list_elem_of_here. }
  assert (Hab : has_edge chain (seg "n" "A") (seg "n" "B") = true).
  { vm_compute. reflexivity. }
  split; [exact Hn|]. split; [exact Hab|].
  exact (compile_keeps_edges networkx2 None
           (add_neurons [single_segment "n1"; chain]) chain
           (seg "n" "A") (seg "n" "B") Hn Hab).
Defined.

(** X10.  [compile(True)] invents no edge: two segments joined by an edge
    in the compiled graph are joined, in one direction or the other, in one
    of the Brain's neurons. *)
Theorem compile_invents_no_edge
    (ext : Externals) (t : option Z) (calls : list method_call)
    (a b : SegmentKey) :
  let self := perform_all ext (__init__ t) calls in
  has_edge (_graph (state_of (compile ext true self))) a b = true →
  ∃ n, n ∈ _neurons self ∧ (has_edge n a b = true ∨ has_edge n b a = true).
Proof.
  intros self. rewrite compile_no_synapses by apply program_no_synapses.
  destruct (_neurons self) as [|C rest]; simpl.
  - intros Hab. apply has_edge_linked in Hab.
    unfold get_edge_data in Hab; simpl in Hab. rewrite lookup_empty in Hab.
    by apply is_Some_None in Hab.
  - intros Hab. apply has_edge_linked in Hab.
    destruct (proj2 (edges_foldl_compose a b rest C) Hab) as (n & Hn & Hl).
    exists n. split; [done|]. rewrite !has_edge_linked. done.
Qed.

(** X10 on a Brain of two neurons, for the edge B - A. *)
Lemma compile_invents_no_edge_witness :
  let self := perform_all networkx2 (__init__ None)
                (add_neurons [single_segment "n1"; chain]) in
  has_edge (_graph (state_of (compile networkx2 true self)))
           (seg "n" "B") (seg "n" "A") = true
  ∧ ∃ n, n ∈ _neurons self
         ∧ (has_edge n (seg "n" "B") (seg "n" "A") = true
            ∨ has_edge n (seg "n" "A") (seg "n" "B") = true).
Proof.
  intros self.
  assert (Hab : has_edge (_graph (state_of (compile networkx2 true self)))
                         (seg "n" "B") (seg "n" "A") = true).
  { vm_compute. reflexivity. }
  split; [exact Hab|].
  exact (compile_invents_no_edge networkx2 None
           (add_neurons [single_segment "n1"; chain])
           (seg "n" "B") (seg "n" "A") Hab).
Defined.

(** ** Edge data through [compile] *)

Lemma update_attr_same (d : AttrDict) (o : option AttrDict) :
  from_option (λ x, x = d) True o → update_attr (default ∅ o) d = d.
Proof.
  unfold update_attr. destruct o as [x|]; simpl.
  - intros ->. apply (idemp_L (∪)).
  - intros _. apply (right_id_L ∅ (∪)).
Qed.

Lemma agrees_add_edge u v x g a b d :
  graph_closed g → agrees_on d a b g →
  ((u = a ∧ v = b) ∨ (u = b ∧ v = a) → x = d) →
  agrees_on d a b (add_edge u v x g).
Proof.
  intros Hg [Hab Hba] Hx. unfold agrees_on.
  rewrite !get_edge_data_add_edge by done.
  split; case_decide as Hc; try done; simpl.
  - destruct Hc as [[-> ->]|[-> ->]]; rewrite Hx by auto;
      by apply update_attr_same.
  - destruct Hc as [[-> ->]|[-> ->]]; rewrite Hx by auto;
      by apply update_attr_same.
Qed.

Lemma agrees_add_row (u : SegmentKey) (row : gmap SegmentKey AttrDict)
    (R : Graph) a b d :
  graph_closed R → agrees_on d a b R →
  (∀ v x, row !! v = Some x → (u = a ∧ v = b) ∨ (u = b ∧ v = a) → x = d) →
  graph_closed (map_fold (λ v d R, add_edge u v d R) R row)
  ∧ agrees_on d a b (map_fold (λ v d R, add_edge u v d R) R row).
Proof.
  intros HR HaR.
  apply (map_fold_weak_ind (λ r (m : gmap SegmentKey AttrDict),
    (∀ v x, m !! v = Some x → (u = a ∧ v = b) ∨ (u = b ∧ v = a) → x = d) →
    graph_closed r ∧ agrees_on d a b r)).
  - done.
  - intros v x m r Hfresh IH Hm.
    destruct IH as [Hr Ha].
    { intros v' x' Hv'. apply Hm. rewrite lookup_insert_ne; [done|].
      intros ->. congruence. }
    split; [by apply graph_closed_add_edge|].
    apply agrees_add_edge; [done..|]. apply Hm. apply lookup_insert_eq.
Qed.

Lemma agrees_add_edges_from src R a b d :
  graph_closed R → agrees_on d a b R →
  agrees_on d a b (mkGraph ∅ ∅ src) →
  agrees_on d a b (add_edges_from src R).
Proof.
  intros HR HaR Hsrc. unfold add_edges_from.
  refine (proj2 (map_fold_weak_ind (λ r (m : gmap SegmentKey (gmap SegmentKey AttrDict)),
    agrees_on d a b (mkGraph ∅ ∅ m) →
    graph_closed r ∧ agrees_on d a b r) _ R _ _ src Hsrc)).
  - done.
  - intros u row m r Hfresh IH [Hab Hba]. unfold get_edge_data in Hab, Hba.
    simpl in Hab, Hba.
    destruct IH as [Hr Ha].
    { split; unfold get_edge_data; simpl.
      - destruct (decide (a = u)) as [->|Hau]; [by rewrite Hfresh|].
        by rewrite lookup_insert_ne in Hab by done.
      - destruct (decide (b = u)) as [->|Hbu]; [by rewrite Hfresh|].
        by rewrite lookup_insert_ne in Hba by done. }
    apply agrees_add_row; [done..|].
    intros v x Hv [[-> ->]|[-> ->]].
    + rewrite lookup_insert_eq in Hab. simpl in Hab. by rewrite Hv in Hab.
    + rewrite lookup_insert_eq in Hba. simpl in Hba. by rewrite Hv in Hba.
Qed.

Lemma agrees_compose G H a b d :
  agrees_on d a b G → agrees_on d a b H → agrees_on d a b (compose G H).
Proof.
  intros HG HH. unfold compose. set (R0 := mkGraph _ ∅ ∅).
  assert (H0 : graph_closed R0) by apply graph_closed_nx_Graph.
  assert (H1 : graph_closed (add_nodes_from (_node G) R0))
    by by apply graph_closed_add_nodes_from.
  assert (H2 : graph_closed (add_nodes_from (_node H) (add_nodes_from (_node G) R0)))
    by by apply graph_closed_add_nodes_from.
  apply agrees_add_edges_from; [by apply graph_closed_add_edges_from| |done].
  apply agrees_add_edges_from; [done| |done].
  unfold agrees_on. rewrite !edges_add_nodes_from by done.
  unfold get_edge_data; simpl. by rewrite !lookup_empty.
Qed.

Lemma agrees_foldl_compose a b d rest : ∀ C,
  Forall (agrees_on d a b) (C :: rest) →
  agrees_on d a b (foldl compose C rest).
Proof.
  induction rest as [|H rest IH]; intros C HC; simpl.
  - by apply Forall_cons in HC as [? _].
  - apply Forall_cons in HC as [HC Hrest].
    apply Forall_cons in Hrest as [HH Hrest].
    apply IH. apply Forall_cons. split; [by apply agrees_compose|done].
Qed.

(** X11.  [compile(True)] keeps the data of internal edges: when a neuron
    of the Brain holds the data [d] for the edge from [a] to [b], and no
    neuron holds other data for the edge between [a] and [b], the compiled
    graph holds [d] for that edge. *)
Theorem compile_keeps_edge_data
    (ext : Externals) (t : option Z) (calls : list method_call)
    (n : Neuron) (a b : SegmentKey) (d : AttrDict) :
  let self := perform_all ext (__init__ t) calls in
  Forall (agrees_on d a b) (_neurons self) →
  n ∈ _neurons self →
  get_edge_data n a b = Some d →
  get_edge_data (_graph (state_of (compile ext true self))) a b = Some d.
Proof.
  intros self Hall Hn Hd.
  rewrite compile_no_synapses by apply program_no_synapses.
  destruct (_neurons self) as [|C rest]; [by apply elem_of_nil in Hn|]. simpl.
  assert (Hl : is_Some (get_edge_data (foldl compose C rest) a b)).
  { apply (proj1 (edges_foldl_compose a b rest C) n); [done|]. by rewrite Hd. }
  destruct Hl as [x Hx].
  destruct (agrees_foldl_compose a b d rest C Hall) as [Hab _].
  rewrite Hx in Hab. simpl in Hab. by rewrite Hx, Hab.
Qed.

(** X11 on a Brain of two neurons, for the edge B - C of the second. *)
Lemma compile_keeps_edge_data_witness :
  let self := perform_all networkx2 (__init__ None)
                (add_neurons [single_segment "n1"; chain]) in
  let d : AttrDict := {[ "weight" := 2 ]} in
  Forall (agrees_on d (seg "n" "B") (seg "n" "C")) (_neurons self)
  ∧ chain ∈ _neurons self
  ∧ get_edge_data chain (seg "n" "B") (seg "n" "C") = Some d
  ∧ get_edge_data (_graph (state_of (compile networkx2 true self)))
                  (seg "n" "B") (seg "n" "C") = Some d.
Proof.
  intros self d.
  assert (Hall : Forall (agrees_on d (seg "n" "B") (seg "n" "C")) (_neurons self)).
  { change (_neurons self) with [single_segment "n1"; chain].
    repeat (apply Forall_cons; split); [| |apply Forall_nil];
      vm_compute; split; reflexivity || exact I. }
  assert (Hn : chain ∈ _neurons self).
  { change (_neurons self) with [single_segment "n1"; chain].
    apply list_elem_of_further, list_elem_of_here. }
  assert (Hd : get_edge_data chain (seg "n" "B") (seg "n" "C") = Some d).
  { vm_compute. reflexivity. }
  split; [exact Hall|]. split; [exact Hn|]. split; [exact Hd|].
  exact (compile_keeps_edge_data networkx2 None
           (add_neurons [single_segment "n1"; chain]) chain
           (seg "n" "B") (seg "n" "C") d Hall Hn Hd).
Defined.

(** ** The requirement lines of the packaging script *)

Lemma startswith_spec p : ∀ x, startswith x p = true ↔ ∃ r, x = p ++ r.
Proof.
  induction p as [|c p IH]; intros x.
  - destruct x; simpl; naive_solver.
  - destruct x as [|d x]; simpl; [naive_solver|].
    rewrite andb_true_iff, bool_decide_eq_true, IH. naive_solver.
Qed.

Lemma contains_spec p : ∀ x, contains x p = true ↔ ∃ l r, x = l ++ p ++ r.
Proof.
  induction x as [|d x IH].
  - cbn [contains]. rewrite orb_false_r, startswith_spec. split.
    + intros [r Hr]. by exists [], r.
    + intros (l & r & Hx). symmetry in Hx.
      apply app_eq_nil in Hx as [-> Hx]. eauto.
  - cbn [contains]. rewrite orb_true_iff, IH, startswith_spec. split.
    + intros [[r Hr]|(l & r & Hx)].
      * by exists [], r.
      * exists (d :: l), r. by rewrite Hx.
    + intros (l & r & Hx). destruct l as [|d' l]; simpl in Hx.
      * left. eauto.
      * right. exists l, r. congruence.
Qed.

Lemma startswith_contains x p : startswith x p = true → contains x p = true.
Proof. destruct x; cbn [contains]; intros ->; done. Qed.

Lemma contains_infix l m r p :
  contains m p = true → contains (l ++ m ++ r) p = true.
Proof.
  rewrite !contains_spec. intros (l' & r' & ->).
  exists (l ++ l'), (r' ++ r). by rewrite <-!app_assoc.
Qed.

Lemma lstrip_from_suffix x : ∀ skip, ∃ l, x = l ++ lstrip_from skip x.
Proof.
  induction x as [|c x IH]; intros skip; [by exists []|].
  cbn [lstrip_from]. destruct skip as [|k].
  - destruct (List.find _ whitespace) as [w|]; [|by exists []].
    destruct (IH (length w - 1)%nat) as [l Hl]. exists (c :: l).
    by rewrite Hl at 1.
  - destruct (IH k) as [l Hl]. exists (c :: l). by rewrite Hl at 1.
Qed.

Lemma rstrip_prefix x : ∃ r, x = rstrip x ++ r.
Proof.
  induction x as [|c x [r Hr]]; [by exists []|].
  cbn [rstrip]. destruct (lstrip (c :: x)); [by eexists|].
  exists r. by rewrite Hr at 1.
Qed.

(** What [strip] returns is a piece of what it was given. *)
Lemma strip_infix x : ∃ l r, x = l ++ strip x ++ r.
Proof.
  unfold strip. destruct (lstrip_from_suffix x 0) as [l Hl].
  destruct (rstrip_prefix (lstrip x)) as [r Hr].
  exists l, r. unfold lstrip in *. by rewrite <-Hr.
Qed.

Lemma split_newline_nonempty s : split_newline s ≠ [].
Proof.
  destruct s as [|c s]; simpl; [done|]. case_bool_decide; [done|].
  by destruct (split_newline s).
Qed.

(** A newline ends a line wherever it stands. *)
Lemma split_newline_app a : ∀ b,
  split_newline (a ++ newline :: b) = split_newline a ++ split_newline b.
Proof.
  induction a as [|c a IH]; intros b.
  - reflexivity.
  - cbn [app split_newline]. case_bool_decide; [by rewrite IH|]. rewrite IH.
    pose proof (split_newline_nonempty a).
    by destruct (split_newline a).
Qed.

Lemma replace_without_occurrence old new x :
  contains x old = false → replace x old new = x.
Proof.
  unfold replace. induction x as [|c x IH]; [done|].
  cbn [contains replace_from]. intros [Hs Hc]%orb_false_iff.
  by rewrite Hs, IH.
Qed.

Lemma lstrip_git url : lstrip (git ++ url) = git ++ url.
Proof. reflexivity. Qed.

Lemma rstrip_git url : rstrip (git ++ url) = git ++ rstrip url.
Proof. reflexivity. Qed.

Lemma replace_git r : replace (git ++ r) git [] = replace r git [].
Proof. reflexivity. Qed.

(** X12.  A line of [requirements.txt] goes to [install_requires] or to
    [dependency_links], never to both: together the two lists are no
    longer than the file has lines. *)
Theorem requirement_in_one_list_at_most (all_reqs : list pystr) :
  (length (install_requires all_reqs) + length (dependency_links all_reqs)
   ≤ length all_reqs)%nat.
Proof.
  unfold install_requires, dependency_links. rewrite !length_fmap.
  induction all_reqs as [|x l IH]; [done|].
  rewrite !filter_cons. destruct (startswith x git) eqn:Hs.
  - rewrite (startswith_contains x git Hs).
    rewrite decide_False by done. rewrite decide_True by done.
    cbn [length]. lia.
  - rewrite (decide_False (P := false = true)) by done.
    case_decide; cbn [length]; lia.
Qed.

(** X13.  A line in which [git+] occurs, but not at the very start (an
    indented line, or one with an option before the link), is dropped: it
    adds nothing to [install_requires] and nothing to
    [dependency_links]. *)
Theorem stray_git_line_is_dropped (before after : list pystr) (x : pystr) :
  contains x git = true →
  startswith x git = false →
  install_requires (before ++ x :: after) = install_requires (before ++ after)
  ∧ dependency_links (before ++ x :: after) = dependency_links (before ++ after).
Proof.
  intros Hc Hs. unfold install_requires, dependency_links.
  rewrite !filter_app, !filter_cons, Hc, Hs.
  rewrite (decide_False (P := true = false)) by done.
  rewrite (decide_False (P := false = true)) by done. done.
Qed.

(** X13 on an indented link. *)
Lemma stray_git_line_is_dropped_witness :
  let x := lit " git+https://github.com/a/b" in
  contains x git = true
  ∧ startswith x git = false
  ∧ (install_requires ([lit "networkx"] ++ x :: [lit "numpy"])
     = install_requires ([lit "networkx"] ++ [lit "numpy"])
     ∧ dependency_links ([lit "networkx"] ++ x :: [lit "numpy"])
       = dependency_links ([lit "networkx"] ++ [lit "numpy"])).
Proof.
  intros x.
  assert (Hc : contains x git = true) by (vm_compute; reflexivity).
  assert (Hs : startswith x git = false) by (vm_compute; reflexivity).
  split; [exact Hc|]. split; [exact Hs|].
  exact (stray_git_line_is_dropped [lit "networkx"] [lit "numpy"] x Hc Hs).
Defined.

(** X14.  No requirement to install mentions [git+]: stripping a line
    cannot bring in what the line did not have. *)
Theorem install_requires_without_git (all_reqs : list pystr) (r : pystr) :
  r ∈ install_requires all_reqs → contains r git = false.
Proof.
  unfold install_requires. intros (x & -> & Hx)%list_elem_of_fmap.
  apply list_elem_of_filter in Hx as [Hx _].
  destruct (contains (strip x) git) eqn:Hc; [|done].
  destruct (strip_infix x) as (l & r & Hlr).
  apply (contains_infix l _ r) in Hc. rewrite <-Hlr in Hc. congruence.
Qed.

(** X14 on a file of two lines. *)
Lemma install_requires_without_git_witness :
  let all_reqs := [lit " networkx "; lit "git+https://github.com/a/b"] in
  lit "networkx" ∈ install_requires all_reqs
  ∧ contains (lit "networkx") git = false.
Proof.
  intros all_reqs.
  assert (Hr : lit "networkx" ∈ install_requires all_reqs).
  { change (install_requires all_reqs) with [lit "networkx"].
    apply list_elem_of_here. }
  split; [exact Hr|].
  exact (install_requires_without_git all_reqs (lit "networkx") Hr).
Defined.

(** X15.  A [requirements.txt] that ends with a newline yields an empty
    requirement: the last entry of [install_requires] is the empty
    string. *)
Theorem final_newline_gives_empty_requirement (content : pystr) :
  last (install_requires (split_newline (content ++ [newline]))) = Some [].
Proof.
  rewrite split_newline_app. unfold install_requires.
  rewrite filter_app, fmap_app.
  change (strip <$> filter (λ x, contains x git = false) (split_newline []))
    with [@nil ascii].
  apply last_snoc.
Qed.

(** X16.  A line [git+URL] whose [URL] does not itself contain [git+]
    gives the dependency link [URL] without its trailing whitespace;
    whitespace between [git+] and the rest is kept. *)
Theorem dependency_link_of_git_line (url : pystr) :
  contains url git = false →
  dependency_links [git ++ url] = [rstrip url].
Proof.
  intros Hc. unfold dependency_links.
  rewrite filter_cons, decide_True by by apply startswith_spec; eauto.
  rewrite filter_nil.
  change ((λ x, replace (strip x) git []) <$> [git ++ url])
    with [replace (strip (git ++ url)) git []].
  unfold strip. rewrite lstrip_git, rstrip_git, replace_git.
  rewrite replace_without_occurrence; [done|].
  destruct (contains (rstrip url) git) eqn:Hr; [|done].
  destruct (rstrip_prefix url) as [r Hurl].
  apply (contains_infix [] _ r) in Hr. simpl in Hr. rewrite <-Hurl in Hr.
  congruence.
Qed.

(** X16 on a link followed by blanks. *)
Lemma dependency_link_of_git_line_witness :
  let url := lit " https://github.com/a/b.git  " in
  contains url git = false
  ∧ dependency_links [git ++ url] = [lit " https://github.com/a/b.git"].
Proof.
  intros url.
  assert (Hc : contains url git = false) by (vm_compute; reflexivity).
  split; [exact Hc|].
  exact (dependency_link_of_git_line url Hc).
Defined.

(** ** Node attributes through [compile] *)

Lemma node_add_node n a g k :
  _node (add_node n a g) !! k
  = if decide (k = n)
    then Some (from_option (λ old, update_attr old a) a (_node g !! n))
    else _node g !! k.
Proof.
  unfold add_node. destruct (_node g !! n) eqn:Hn; simpl;
    rewrite lookup_insert; repeat case_decide; congruence.
Qed.

Lemma node_add_nodes_from src R k :
  _node (add_nodes_from src R) !! k
  = match src !! k with
    | Some a => Some (from_option (λ old, update_attr old a) a (_node R !! k))
    | None => _node R !! k
    end.
Proof.
  unfold add_nodes_from. revert k.
  apply (map_fold_weak_ind (λ r (m : gmap SegmentKey AttrDict), ∀ k,
    _node r !! k
    = match m !! k with
      | Some a => Some (from_option (λ old, update_attr old a) a (_node R !! k))
      | None => _node R !! k
      end)).
  - intros k. by rewrite lookup_empty.
  - intros n a m r Hfresh IH k. rewrite node_add_node, lookup_insert.
    destruct (decide (k = n)) as [->|Hk].
    + rewrite decide_True by done. by rewrite IH, Hfresh.
    + rewrite decide_False by done. apply IH.
Qed.

Lemma ensure_node_known n g : n ∈ nodes g → ensure_node n g = g.
Proof.
  unfold nodes, ensure_node. intros [a Ha]%elem_of_dom. by rewrite Ha.
Qed.

Lemma node_add_edge u v d g :
  u ∈ nodes g → v ∈ nodes g → _node (add_edge u v d g) = _node g.
Proof.
  intros Hu Hv. unfold add_edge; simpl.
  by rewrite (ensure_node_known u), (ensure_node_known v).
Qed.

Lemma node_add_row (u : SegmentKey) (row : gmap SegmentKey AttrDict) (R : Graph) :
  u ∈ nodes R → dom row ⊆ nodes R →
  _node (map_fold (λ v d R, add_edge u v d R) R row) = _node R.
Proof.
  intros Hu.
  apply (map_fold_weak_ind (λ r (m : gmap SegmentKey AttrDict),
    dom m ⊆ nodes R → _node r = _node R)).
  - done.
  - intros v d m r _ IH Hsub. rewrite dom_insert_L in Hsub.
    assert (Hr : _node r = _node R) by (apply IH; set_solver).
    rewrite node_add_edge; [done|unfold nodes; rewrite Hr; fold (nodes R)..];
      set_solver.
Qed.

Lemma node_add_edges_from src R :
  map_Forall (λ u row, u ∈ nodes R ∧ dom row ⊆ nodes R) src →
  _node (add_edges_from src R) = _node R.
Proof.
  unfold add_edges_from.
  apply (map_fold_weak_ind (λ r (m : gmap SegmentKey (gmap SegmentKey AttrDict)),
    map_Forall (λ u row, u ∈ nodes R ∧ dom row ⊆ nodes R) m →
    _node r = _node R)).
  - done.
  - intros u row m r Hfresh IH Hall.
    apply map_Forall_insert in Hall as [[Hu Hrow] Hm]; [|done].
    specialize (IH Hm).
    rewrite node_add_row; [done|unfold nodes; rewrite IH; fold (nodes R)..];
      done.
Qed.

(** The attributes of a node of [nx.compose(G, H)]: those of [H] over those
    of [G]. *)
Lemma node_compose G H k :
  graph_closed G → graph_closed H →
  _node (compose G H) !! k
  = union_with (λ h g, Some (update_attr g h)) (_node H !! k) (_node G !! k).
Proof.
  intros HG HH. unfold compose. set (R0 := mkGraph _ ∅ ∅).
  set (R2 := add_nodes_from (_node H) (add_nodes_from (_node G) R0)).
  assert (Hn : nodes R2 = nodes G ∪ nodes H).
  { unfold R2. rewrite !nodes_add_nodes_from.
    assert (HR0 : nodes R0 = ∅) by apply dom_empty_L.
    rewrite HR0. unfold nodes. set_solver. }
  assert (HG2 : map_Forall (λ u row, u ∈ nodes R2 ∧ dom row ⊆ nodes R2) (_adj G)).
  { intros u row Hrow. destruct (HG _ _ Hrow). rewrite Hn. set_solver. }
  assert (HH2 : map_Forall (λ u row, u ∈ nodes R2 ∧ dom row ⊆ nodes R2) (_adj H)).
  { intros u row Hrow. destruct (HH _ _ Hrow). rewrite Hn. set_solver. }
  assert (H3 : _node (add_edges_from (_adj G) R2) = _node R2)
    by by apply node_add_edges_from.
  rewrite node_add_edges_from.
  2: { unfold nodes. rewrite H3. done. }
  rewrite H3. unfold R2. rewrite !node_add_nodes_from.
  unfold R0; simpl. rewrite lookup_empty.
  destruct (_node H !! k), (_node G !! k); done.
Qed.

Lemma node_value_foldl_compose k name v rest : ∀ C,
  graph_closed C → Forall graph_closed rest →
  node_value C k name = Some v →
  Forall (λ m, node_value m k name = None) rest →
  node_value (foldl compose C rest) k name = Some v.
Proof.
  induction rest as [|H rest IH]; intros C HC Hcl Hv Hrest; [done|].
  apply Forall_cons in Hcl as [HH Hcl].
  apply Forall_cons in Hrest as [HHv Hrest].
  simpl. apply IH; [apply graph_closed_compose|done| |done].
  unfold node_value in *. rewrite node_compose by done.
  destruct (_node C !! k) as [c|]; [|done]. simpl in Hv.
  destruct (_node H !! k) as [h|]; simpl; [|done]. simpl in HHv.
  unfold update_attr. by rewrite lookup_union_r.
Qed.

Lemma node_value_later k name v n after : ∀ C,
  graph_closed C → graph_closed n → Forall graph_closed after →
  node_value n k name = Some v →
  Forall (λ m, node_value m k name = None) after →
  node_value (foldl compose C (n :: after)) k name = Some v.
Proof.
  intros C HC Hn Hcl Hv Hafter. simpl.
  apply node_value_foldl_compose; [apply graph_closed_compose|done| |done].
  unfold node_value in *. rewrite node_compose by done.
  destruct (_node n !! k) as [h|]; [|done]. simpl in Hv.
  destruct (_node C !! k) as [c|]; simpl; [|done].
  unfold update_attr. by apply lookup_union_Some_l.
Qed.

(** X17.  Where neurons declare the same segment, the one added last
    decides: an attribute that a neuron gives to a segment is the one the
    compiled graph has for it, provided no neuron added later gives that
    attribute to that segment. *)
Theorem later_neuron_decides
    (ext : Externals) (t : option Z) (before after : list Neuron) (n : Neuron)
    (k : SegmentKey) (name : string) (v : Z) :
  Forall graph_closed (before ++ n :: after) →
  node_value n k name = Some v →
  Forall (λ m, node_value m k name = None) after →
  let self := perform_all ext (__init__ t) (add_neurons (before ++ n :: after)) in
  node_value (_graph (state_of (compile ext true self))) k name = Some v.
Proof.
  intros Hcl Hv Hafter self. subst self.
  rewrite perform_add_neurons by done. rewrite compile_no_synapses by done.
  simpl. apply Forall_app in Hcl as [Hb Hcl].
  apply Forall_cons in Hcl as [Hn Hcl].
  destruct before as [|C before]; simpl.
  - by apply node_value_foldl_compose.
  - apply Forall_cons in Hb as [HC Hb]. rewrite foldl_app.
    apply node_value_later; try done.
    by destruct (foldl_compose_spec before C HC Hb).
Qed.

(** X17 on two neurons that both declare the segment [("n", "A")], followed
    by a third that does not. *)
Lemma later_neuron_decides_witness :
  let k := seg "n" "A" in
  let first := add_node k {[ "kind" := 1 ]} nx_Graph in
  let second := add_node k {[ "kind" := 2 ]} nx_Graph in
  let after := [single_segment "n1"] in
  let self := perform_all networkx2 (__init__ None)
                (add_neurons ([first] ++ second :: after)) in
  Forall graph_closed ([first] ++ second :: after)
  ∧ node_value second k "kind" = Some 2
  ∧ Forall (λ m, node_value m k "kind" = None) after
  ∧ node_value (_graph (state_of (compile networkx2 true self))) k "kind" = Some 2.
Proof.
  intros k first second after self.
  assert (Hcl : Forall graph_closed ([first] ++ second :: after)).
  { repeat (apply Forall_cons; split;
            [apply (bool_decide_unpack _); vm_compute; exact I|]).
    constructor. }
  assert (Hv : node_value second k "kind" = Some 2) by (vm_compute; reflexivity).
  assert (Hafter : Forall (λ m, node_value m k "kind" = None) after).
  { unfold after. apply Forall_cons; split; [vm_compute; reflexivity|constructor]. }
  split; [exact Hcl|]. split; [exact Hv|]. split; [exact Hafter|].
  exact (later_neuron_decides networkx2 None [first] after second k "kind" 2
           Hcl Hv Hafter).
Defined.
